(** * connect-es: the handler contract of [method-implementation.ts]

    The source file declares types only: the [HandlerContext] interface and
    the conditional type [MethodImpl] with the four handler signatures it
    selects between.  The development embeds

    - the TypeScript types the file writes, as terms of [Ty];
    - the type-level program [MethodImpl], as a function from descriptor
      types to [Ty];
    - the values those types classify, with the typing judgement
      [has_type], so that statements about "what a handler may return"
      are statements about the inhabitants of a return type;
    - the parts of the server runtime that construct and drive a
      [HandlerContext]; they are not in this file of the package and are
      modelled from the specification, each under a comment saying so. *)

From Stdlib Require Import List String ZArith Bool Lia.
Import ListNotations.
Open Scope string_scope.
Open Scope list_scope.
Set Warnings "-register-all".

(** Lookup of a name in an association list, first match. *)
Fixpoint assoc {A : Type} (l : list (string * A)) (name : string) : option A :=
  match l with
  | [] => None
  | (n, a) :: l' => if String.eqb n name then Some a else assoc l' name
  end.

(** ** Imported vocabulary of [@bufbuild/protobuf] *)

Module Protobuf.

(** Modelled from the spec: the enum [MethodKind] is imported from
    [@bufbuild/protobuf]; the specification fixes its members as the four
    call shapes unary, server-streaming, client-streaming and
    bidirectional-streaming.  The constructors carry the names the source
    uses at lines 90-93. *)
Inductive MethodKind : Type :=
| Unary
| ServerStreaming
| ClientStreaming
| BiDiStreaming.

Definition MethodKind_eqb (a b : MethodKind) : bool :=
  match a, b with
  | Unary, Unary
  | ServerStreaming, ServerStreaming
  | ClientStreaming, ClientStreaming
  | BiDiStreaming, BiDiStreaming => true
  | _, _ => false
  end.

(** A scalar field value of a message. *)
Inductive Scalar : Type :=
| SNum (n : Z)
| SStr (s : string).

Definition same_kind (a b : Scalar) : bool :=
  match a, b with
  | SNum _, SNum _ => true
  | SStr _, SStr _ => true
  | _, _ => false
  end.

(** Modelled from the spec: a message type ([MessageType<T>], imported)
    is known by its name and by the fields it declares, each with the
    default the schema gives it. *)
Record MessageType : Type := {
  typeName : string;
  fields : list (string * Scalar);
}.

End Protobuf.
Export Protobuf.

(** ** TypeScript types *)

Inductive Ty : Type :=
| TNever
| TUndefined
| TNumber
| TString
| TRef (name : string)                       (* an imported interface *)
| TMessage (m : MessageType)                 (* a message class, I or O *)
| TPartialMessage (m : MessageType)          (* PartialMessage<O> *)
| TPromise (t : Ty)
| TAsyncIterable (t : Ty)
| TUnion (l r : Ty)
| TFun (params : list (string * Ty)) (ret : Ty)
| TInterface (members : list (string * Ty)). (* readonly members *)

(** The parameters and the result of a function type. *)
Definition params_of (t : Ty) : list (string * Ty) :=
  match t with
  | TFun ps _ => ps
  | _ => []
  end.

Definition return_of (t : Ty) : Ty :=
  match t with
  | TFun _ r => r
  | _ => TNever
  end.

(** The members of a union, left to right. *)
Fixpoint union_members (t : Ty) : list Ty :=
  match t with
  | TUnion l r => union_members l ++ union_members r
  | TNever => []
  | _ => [t]
  end.

(** ** The source file *)

(** [interface HandlerContext], lines 30-83. *)
Definition HandlerContext : Ty :=
  TInterface
    [ ("method", TRef "MethodInfo");
      ("service", TRef "ServiceType");
      ("signal", TRef "AbortSignal");
      ("timeoutMs", TFun [] (TUnion TNumber TUndefined));
      ("requestMethod", TString);
      ("requestHeader", TRef "Headers");
      ("responseHeader", TRef "Headers");
      ("responseTrailer", TRef "Headers");
      ("protocolName", TString) ].

Definition members_of (t : Ty) : list (string * Ty) :=
  match t with
  | TInterface ms => ms
  | _ => []
  end.

Definition member_type (t : Ty) (name : string) : option Ty :=
  assoc (members_of t) name.

Definition is_ref (name : string) (t : Ty) : bool :=
  match t with
  | TRef n => String.eqb n name
  | _ => false
  end.

(** The members of an interface that have the imported type [name]. *)
Definition members_of_type (name : string) (t : Ty) : list string :=
  map fst (filter (fun m => is_ref name (snd m)) (members_of t)).

(** [type UnaryImpl<I, O>], lines 111-114. *)
Definition UnaryImpl (I O : MessageType) : Ty :=
  TFun [ ("request", TMessage I); ("context", HandlerContext) ]
       (TUnion (TPromise (TUnion (TMessage O) (TPartialMessage O)))
               (TUnion (TMessage O) (TPartialMessage O))).

(** [type ClientStreamingImpl<I, O>], lines 120-123. *)
Definition ClientStreamingImpl (I O : MessageType) : Ty :=
  TFun [ ("requests", TAsyncIterable (TMessage I)); ("context", HandlerContext) ]
       (TPromise (TUnion (TMessage O) (TPartialMessage O))).

(** [type ServerStreamingImpl<I, O>], lines 129-132. *)
Definition ServerStreamingImpl (I O : MessageType) : Ty :=
  TFun [ ("request", TMessage I); ("context", HandlerContext) ]
       (TAsyncIterable (TUnion (TMessage O) (TPartialMessage O))).

(** [type BiDiStreamingImpl<I, O>], lines 138-141. *)
Definition BiDiStreamingImpl (I O : MessageType) : Ty :=
  TFun [ ("requests", TAsyncIterable (TMessage I)); ("context", HandlerContext) ]
       (TAsyncIterable (TUnion (TMessage O) (TPartialMessage O))).

(** *** Descriptor types

    [interface TypedMethodInfo<I, O, K>], lines 96-106.  The members
    [name] and [idempotency] have the same type in every instance; an
    instance is determined by [I], [O] and the type [K] of its member
    [kind]. *)

(** One member of the union that is the type of [kind]:
    - [KMember k], the enum literal type [MethodKind.k];
    - [KNumeric v], a numeric literal type, whose value is that of the
      member [k] of the enum ([v = Some k]) or of no member ([v = None]);
    - [KNumber], the type [number];
    - [KAny], the type [any];
    - [KForeign label], a literal type that is not a number, such as a
      string literal. *)
Inductive KindLit : Type :=
| KMember (k : MethodKind)
| KNumeric (v : option MethodKind)
| KNumber
| KAny
| KForeign (label : string).

(** The type of [kind] is a union, kept as the list of its members; the
    empty union is [never], and the enum type [MethodKind] itself is the
    union of its four members. *)
Definition KindTy : Type := list KindLit.

Definition is_any (l : KindLit) : bool :=
  match l with
  | KAny => true
  | _ => false
  end.

Definition is_number (l : KindLit) : bool :=
  match l with
  | KNumber => true
  | _ => false
  end.

Definition is_numeric_literal (l : KindLit) : bool :=
  match l with
  | KMember _ | KNumeric _ => true
  | _ => false
  end.

(** The union as TypeScript keeps it: [any] absorbs every other member,
    and [number] absorbs the numeric literal types, the members of a
    numeric enum among them. *)
Definition reduce (K : KindTy) : KindTy :=
  if existsb is_any K then [KAny]
  else if existsb is_number K
       then filter (fun l => negb (is_numeric_literal l)) K
       else K.

Definition MethodKindTy : KindTy :=
  [ KMember Unary; KMember ServerStreaming;
    KMember ClientStreaming; KMember BiDiStreaming ].

Record TypedMethodInfo : Type := {
  I : MessageType;
  O : MessageType;
  kind : KindTy;
}.


(** Assignability of one member to the literal type [MethodKind.k] of a
    numeric enum: the literal itself; a numeric literal of the same value;
    [number], which is assignable to every numeric enum literal type; and
    [any]. *)
Definition KindLit_is (k : MethodKind) (l : KindLit) : bool :=
  match l with
  | KMember k' => MethodKind_eqb k' k
  | KNumeric (Some k') => MethodKind_eqb k' k
  | KNumeric None => false
  | KNumber => true
  | KAny => true
  | KForeign _ => false
  end.

(** [K extends MethodKind.X]: a union is assignable to a literal type
    when each of its members is. *)
Definition kind_extends (K : KindTy) (k : MethodKind) : bool :=
  forallb (KindLit_is k) (reduce K).


(** [M extends TypedMethodInfo<infer I, infer O, MethodKind.X>]: [I] and
    [O] are inferred from [M], so the test only depends on [kind]. *)
Definition extends_TypedMethodInfo (M : TypedMethodInfo) (k : MethodKind) : bool :=
  kind_extends (kind M) k.

(** [type MethodImpl<M>], lines 89-94: the chain of conditional types,
    tried in the order written, ending in [never]. *)
Definition MethodImpl (M : TypedMethodInfo) : Ty :=
  if extends_TypedMethodInfo M Unary then UnaryImpl (I M) (O M)
  else if extends_TypedMethodInfo M ServerStreaming then ServerStreamingImpl (I M) (O M)
  else if extends_TypedMethodInfo M ClientStreaming then ClientStreamingImpl (I M) (O M)
  else if extends_TypedMethodInfo M BiDiStreaming then BiDiStreamingImpl (I M) (O M)
  else TNever.

(** The signature the source pairs with each call shape. *)
Definition impl_of (k : MethodKind) (I O : MessageType) : Ty :=
  match k with
  | Unary => UnaryImpl I O
  | ServerStreaming => ServerStreamingImpl I O
  | ClientStreaming => ClientStreamingImpl I O
  | BiDiStreaming => BiDiStreamingImpl I O
  end.

(** The shapes whose handler returns an async iterable (lines 132, 141). *)
Definition streaming_output (k : MethodKind) : bool :=
  match k with
  | ServerStreaming | BiDiStreaming => true
  | Unary | ClientStreaming => false
  end.

Definition returns_async_iterable (t : Ty) : bool :=
  match return_of t with
  | TAsyncIterable _ => true
  | _ => false
  end.

(** The shapes whose handler receives an async iterable (lines 121, 139). *)
Definition streaming_input (k : MethodKind) : bool :=
  match k with
  | ClientStreaming | BiDiStreaming => true
  | Unary | ServerStreaming => false
  end.

(** The type of the first parameter: the request side. *)
Definition request_type (t : Ty) : Ty :=
  match params_of t with
  | (_, a) :: _ => a
  | [] => TNever
  end.





(** ** Values

    The values the types above classify.  [Promise] and [AsyncIterable]
    are the types of TypeScript's standard library.  A handler's failure
    (a thrown error, a rejected promise, an iterator that throws) is not
    part of a TypeScript signature, for any of the shapes; values describe
    normal completion. *)

(** An async iterable, by what its consumer observes: [it p n] is the
    result of the [n]-th call of [next()] on the iterator that the
    [p]-th call of [[Symbol.asyncIterator]()] returned, the consumer
    being done with one iterator before it asks for the next; [None] is
    [{done: true}].  Elements exist only as answers to [next()]. *)
Definition Iteration (A : Type) : Type := nat -> nat -> option A.

Inductive Val : Type :=
| VUndefined
| VNumber (n : Z)
| VString (s : string)
| VHost (iface : string)                          (* object of an imported interface *)
| VMessage (m : MessageType) (fs : list (string * Scalar)) (* instance of a message class *)
| VPlain (fs : list (string * Scalar))            (* object literal with scalar members *)
| VPromise (v : Val)                              (* promise fulfilled with [v] *)
| VAsyncIterable (it : Iteration Val)
| VThunk (f : Z -> Val)                           (* () => ..., result when called at a time *)
| VFunction (params : list (string * Ty)) (ret : Ty) (* function declared with a signature *)
| VObject (ms : list (string * Val)).

(** A message instance carries every declared field, in declaration
    order, each with a value of the declared kind. *)
Fixpoint conforms (schema fs : list (string * Scalar)) : bool :=
  match schema, fs with
  | [], [] => true
  | (n, d) :: schema', (n', x) :: fs' =>
      String.eqb n n' && same_kind d x && conforms schema' fs'
  | _, _ => false
  end.

(** [PartialMessage<T>] makes every field optional: an object literal
    conforms when each member it has is a declared field of the declared
    kind. *)
Definition partial_for (schema fs : list (string * Scalar)) : bool :=
  forallb (fun nx => match assoc schema (fst nx) with
                     | Some d => same_kind d (snd nx)
                     | None => false
                     end) fs.

(** The typing judgement. *)
Fixpoint has_type (t : Ty) (v : Val) {struct t} : Prop :=
  match t with
  | TNever => False
  | TUndefined => v = VUndefined
  | TNumber => exists n, v = VNumber n
  | TString => exists s, v = VString s
  | TRef name => v = VHost name
  | TMessage m => exists fs, v = VMessage m fs /\ conforms (fields m) fs = true
  | TPartialMessage m =>
      (exists fs, v = VMessage m fs /\ conforms (fields m) fs = true) \/
      (exists fs, v = VPlain fs /\ partial_for (fields m) fs = true)
  | TPromise t' => exists w, v = VPromise w /\ has_type t' w
  | TAsyncIterable t' =>
      exists it, v = VAsyncIterable it /\
                 forall p n w, it p n = Some w -> has_type t' w
  | TUnion l r => has_type l v \/ has_type r v
  | TFun [] r => exists f, v = VThunk f /\ forall now, has_type r (f now)
  | TFun ps r => exists ps', v = VFunction ps' r /\ map snd ps' = map snd ps
  | TInterface ms =>
      exists o, v = VObject o /\
        (fix all (ms : list (string * Ty)) : Prop :=
           match ms with
           | [] => True
           | (n, t') :: ms' =>
               (exists w, assoc o n = Some w /\ has_type t' w) /\ all ms'
           end) ms
  end.

(** *** Shapes of async iterables *)

(** The iterable has an end: every pass reaches [{done: true}]. *)
Definition finite {A : Type} (it : Iteration A) : Prop :=
  forall p, exists n, it p n = None.

(** The iterable can be consumed once: a later pass yields nothing. *)
Definition non_restartable {A : Type} (it : Iteration A) : Prop :=
  forall p n, it (S p) n = None.

(** The number of elements a pass yields before it ends is [len]. *)
Definition yields {A : Type} (it : Iteration A) (p len : nat) : Prop :=
  it p len = None /\ forall n, n < len -> it p n <> None.

(** A type of finite, non-restartable sequences: each of its values is
    an async iterable that has an end and can be consumed once. *)
Definition finite_single_pass (t : Ty) : Prop :=
  forall v, has_type t v ->
            exists it, v = VAsyncIterable it /\ finite it /\ non_restartable it.

(** An async generator over a list: one pass, then exhausted. *)
Definition generator {A : Type} (l : list A) : Iteration A :=
  fun p n => match p with
             | 0 => nth_error l n
             | S _ => None
             end.

(** An object whose [[Symbol.asyncIterator]()] starts a fresh generator
    over the list at every call. *)
Definition replayable {A : Type} (l : list A) : Iteration A :=
  fun _ n => nth_error l n.

(** [async function* () { while (true) yield a }], started afresh at
    every call. *)
Definition endless {A : Type} (a : A) : Iteration A :=
  fun _ _ => Some a.

(** *** What a handler's result delivers *)

Inductive Delivery : Type := Sync | Async.

Inductive Output : Type :=
| OneMessage (d : Delivery) (msg : Val)
| MessageStream (it : Iteration Val)
| NoOutput.

Definition is_message_value (v : Val) : bool :=
  match v with
  | VMessage _ _ | VPlain _ => true
  | _ => false
  end.

Definition output_of (v : Val) : Output :=
  match v with
  | VMessage _ _ | VPlain _ => OneMessage Sync v
  | VPromise w => if is_message_value w then OneMessage Async w else NoOutput
  | VAsyncIterable it => MessageStream it
  | _ => NoOutput
  end.

(** The element type written in all four result types: [O | PartialMessage<O>]. *)
Definition OutputMessage (O : MessageType) : Ty :=
  TUnion (TMessage O) (TPartialMessage O).

(** Modelled from the spec: the completion of a partial message, which
    the runtime performs with [@bufbuild/protobuf] before serialization
    and which is not in the source file: every declared field the
    handler left out takes the default the message type declares. *)
Definition complete (m : MessageType) (v : Val) : Val :=
  match v with
  | VPlain fs =>
      VMessage m (map (fun nd => (fst nd, match assoc fs (fst nd) with
                                          | Some x => x
                                          | None => snd nd
                                          end)) (fields m))
  | _ => v
  end.

(** ** Sample message types *)

Module Sample.

Definition GetUserRequest : MessageType :=
  {| typeName := "GetUserRequest"; fields := [ ("id", SNum 0) ] |}.

Definition User : MessageType :=
  {| typeName := "User"; fields := [ ("id", SNum 0); ("name", SStr "") ] |}.

(** [new User()]: every field at its default. *)
Definition default_message (m : MessageType) : Val := VMessage m (fields m).

End Sample.

(** ** The server runtime around a call

    The source file declares what a handler sees; the code that creates a
    [HandlerContext], advances its deadline, aborts its signal and puts
    the response on the wire is elsewhere in the package.  This module
    models it from the specification. *)

Module Runtime.

(** Modelled from the spec: "the active wire protocol's name, one of a
    small fixed set" (a Connect-style protocol, gRPC, or gRPC-Web); the
    runtime's table of protocols is not in the source file. *)
Inductive Protocol : Type :=
| Connect
| Grpc
| GrpcWeb.

(** The names, as the comment at line 80 of the source spells them. *)
Definition protocolNames : list string := [ "connect"; "grpc"; "grpc-web" ].

Definition protocol_name (p : Protocol) : string :=
  match p with
  | Connect => "connect"
  | Grpc => "grpc"
  | GrpcWeb => "grpc-web"
  end.

(** Modelled from the spec: header and trailer containers are
    "insertion-order-preserving key/value multimaps". *)
Definition Headers : Type := list (string * string).

(** What the transport puts on the wire for one response. *)
Inductive Frame : Type :=
| FHeader (h : Headers)
| FMessage (m : Val)
| FEnd (ok : bool) (trailer : Headers).

Definition is_header (f : Frame) : bool :=
  match f with
  | FHeader _ => true
  | _ => false
  end.

(** Output in the sense of the header invariant: a message, or the
    terminal status. *)
Definition is_output (f : Frame) : bool := negb (is_header f).

(** Modelled from the spec: the cancellation signal of a call, "active"
    or "cancelled".  [fired] counts the transitions from active to
    cancelled that have happened. *)
Record Signal : Type := {
  aborted : bool;
  fired : nat;
}.

(** Modelled from the spec: the response side of a call: the two mutable
    containers, whether the outbound headers have been frozen, whether the
    terminal status has been sent, and the frames sent so far. *)
Record Response : Type := {
  responseHeader : Headers;
  responseTrailer : Headers;
  frozen : bool;
  ended : bool;
  wire : list Frame;
}.

(** Modelled from the spec: the state behind one Call Context: call
    metadata, the deadline fixed at construction, the current time, the
    signal and the response. *)
Record Call : Type := {
  shape : MethodKind;
  protocol : Protocol;
  requestMethod : string;
  requestHeader : Headers;
  deadline : option Z;
  now : Z;
  signal : Signal;
  response : Response;
}.

(** What the transport knows when it accepts a call. *)
Record Init : Type := {
  init_shape : MethodKind;
  init_protocol : Protocol;
  init_requestMethod : string;
  init_requestHeader : Headers;
  init_timeoutMs : option N;
  init_now : Z;
}.

(** Modelled from the spec: "Construct exactly one Call Context per
    accepted call, populated with: method/service descriptors, negotiated
    protocol name, inbound HTTP verb, inbound header snapshot, and a
    deadline derived from any client-supplied timeout". *)
Definition create (i : Init) : Call :=
  {| shape := init_shape i;
     protocol := init_protocol i;
     requestMethod := init_requestMethod i;
     requestHeader := init_requestHeader i;
     deadline := option_map (fun ms => (init_now i + Z.of_N ms)%Z) (init_timeoutMs i);
     now := init_now i;
     signal := {| aborted := false; fired := 0 |};
     response := {| responseHeader := []; responseTrailer := [];
                    frozen := false; ended := false; wire := [] |} |}.

Definition with_now (c : Call) (t : Z) : Call :=
  {| shape := shape c; protocol := protocol c;
     requestMethod := requestMethod c; requestHeader := requestHeader c;
     deadline := deadline c; now := t;
     signal := signal c; response := response c |}.

Definition with_signal (c : Call) (s : Signal) : Call :=
  {| shape := shape c; protocol := protocol c;
     requestMethod := requestMethod c; requestHeader := requestHeader c;
     deadline := deadline c; now := now c;
     signal := s; response := response c |}.

Definition with_response (c : Call) (r : Response) : Call :=
  {| shape := shape c; protocol := protocol c;
     requestMethod := requestMethod c; requestHeader := requestHeader c;
     deadline := deadline c; now := now c;
     signal := signal c; response := r |}.

(** Modelled from the spec: "Timeout query returns None/absent when no
    deadline is configured, otherwise non-negative remaining
    milliseconds ... each query recomputes from the original deadline and
    current time". *)
Definition remaining (deadline : option Z) (t : Z) : option Z :=
  match deadline with
  | None => None
  | Some d => Some (Z.max 0 (d - t))
  end.

(** [context.timeoutMs()] *)
Definition timeoutMs (c : Call) : option Z := remaining (deadline c) (now c).

Definition expired (c : Call) : bool :=
  match deadline c with
  | None => false
  | Some d => (d <=? now c)%Z
  end.

(** Modelled from the spec: "Fire the cancellation signal exactly once":
    firing a signal that is already cancelled changes nothing. *)
Definition fire (s : Signal) : Signal :=
  if aborted s then s else {| aborted := true; fired := S (fired s) |}.

(** The counter and the flag agree. *)
Definition signal_ok (s : Signal) : Prop :=
  fired s = if aborted s then 1 else 0.

(** Modelled from the spec: "Before transmitting the first byte of
    response body, read and freeze the context's outbound headers". *)
Definition freeze (r : Response) : Response :=
  if frozen r then r
  else {| responseHeader := responseHeader r;
          responseTrailer := responseTrailer r;
          frozen := true; ended := ended r;
          wire := wire r ++ [FHeader (responseHeader r)] |}.

Definition send (f : Frame) (r : Response) : Response :=
  {| responseHeader := responseHeader r;
     responseTrailer := responseTrailer r;
     frozen := frozen r; ended := ended r;
     wire := wire r ++ [f] |}.

(** "On handler completion, read outbound trailers and the terminal
    success/failure status to finish the call." *)
Definition finish (ok : bool) (r : Response) : Response :=
  {| responseHeader := responseHeader r;
     responseTrailer := responseTrailer r;
     frozen := frozen r; ended := true;
     wire := wire r ++ [FEnd ok (responseTrailer r)] |}.

(** What a handler can do with its context and its result: read any
    member (the signal, the timeout, the metadata), change the outbound
    headers or trailers, hand over an output message, return, or fail. *)
Inductive HandlerOp : Type :=
| Observe
| SetResponseHeader (key value : string)
| SetResponseTrailer (key value : string)
| Yield (m : Val)
| Return
| Throw.

Inductive Event : Type :=
| Elapse (ms : N)
| ClientDisconnect
| Handler (op : HandlerOp).

(** Modelled from the spec: the response side of a handler's action.
    Outbound headers are "mutable only before the response stream is
    finalized"; a later mutation is ignored.  The first output, be it a
    message or the terminal status, freezes the headers first.  Once the
    terminal status is sent the handler is not heard again. *)
Definition respond (op : HandlerOp) (r : Response) : Response :=
  if ended r then r
  else match op with
       | Observe => r
       | SetResponseHeader k v =>
           if frozen r then r
           else {| responseHeader := responseHeader r ++ [(k, v)];
                   responseTrailer := responseTrailer r;
                   frozen := frozen r; ended := ended r; wire := wire r |}
       | SetResponseTrailer k v =>
           {| responseHeader := responseHeader r;
              responseTrailer := responseTrailer r ++ [(k, v)];
              frozen := frozen r; ended := ended r; wire := wire r |}
       | Yield m => send (FMessage m) (freeze r)
       | Return => finish true (freeze r)
       | Throw => finish false (freeze r)
       end.

(** Modelled from the spec: one step of a call.  Time passing moves the
    clock and fires the signal when the deadline lapses; a client
    disconnect fires the signal; nothing the handler does reaches the
    signal. *)
Definition step (c : Call) (e : Event) : Call :=
  match e with
  | Elapse ms =>
      let c' := with_now c (now c + Z.of_N ms)%Z in
      if expired c' then with_signal c' (fire (signal c')) else c'
  | ClientDisconnect => with_signal c (fire (signal c))
  | Handler op => with_response c (respond op (response c))
  end.

Definition run (t : list Event) (c : Call) : Call := fold_left step t c.

(** The response side of an event: only the handler touches it. *)
Definition respond_event (r : Response) (e : Event) : Response :=
  match e with
  | Handler op => respond op r
  | Elapse _ | ClientDisconnect => r
  end.

(** The shape of the wire: nothing is sent while the headers are open;
    once they are frozen the first frame carries them, as they stand, and
    every later frame is output. *)
Definition response_ok (r : Response) : Prop :=
  if frozen r
  then exists rest, wire r = FHeader (responseHeader r) :: rest /\
                    forallb is_output rest = true
  else wire r = [] /\ ended r = false.

(** An event that attempts no output. *)
Definition silent (e : Event) : bool :=
  match e with
  | Handler (Yield _) | Handler Return | Handler Throw => false
  | _ => true
  end.

(** The header entries a trace asks for, in order. *)
Definition headers_set (t : list Event) : Headers :=
  flat_map (fun e => match e with
                     | Handler (SetResponseHeader k v) => [(k, v)]
                     | _ => []
                     end) t.

(** The result of [timeoutMs()] as a value of [number | undefined]. *)
Definition number_or_undefined (r : option Z) : Val :=
  match r with
  | Some ms => VNumber ms
  | None => VUndefined
  end.

(** The context object the handler receives for a call: the members of
    [interface HandlerContext]. *)
Definition context_value (c : Call) : Val :=
  VObject
    [ ("method", VHost "MethodInfo");
      ("service", VHost "ServiceType");
      ("signal", VHost "AbortSignal");
      ("timeoutMs", VThunk (fun t => number_or_undefined (remaining (deadline c) t)));
      ("requestMethod", VString (requestMethod c));
      ("requestHeader", VHost "Headers");
      ("responseHeader", VHost "Headers");
      ("responseTrailer", VHost "Headers");
      ("protocolName", VString (protocol_name (protocol c))) ].

Definition member_value (v : Val) (name : string) : option Val :=
  match v with
  | VObject ms => assoc ms name
  | _ => None
  end.

End Runtime.

(** * Properties *)

(** ** Dispatch: [MethodImpl] *)

Section Dispatch.





(** *** Kinds that name a shape *)







(** *** How the chain ends *)





(** *** Kinds that are rejected *)



(** *** Kinds that pass every test *)







(** The type of [kind] admits no tag at all ([never]): no descriptor has
    this type, and the first test of the chain holds vacuously. *)
Remark MethodImpl_kind_never (A B : MessageType) :
  MethodImpl {| I := A; O := B; kind := [] |} = UnaryImpl A B.
Proof. reflexivity. Qed.

(** The default instance [TypedMethodInfo] (with [K = MethodKind]) does
    not say which shape the method has. *)
Example MethodImpl_default_kind (A B : MessageType) :
  MethodImpl {| I := A; O := B; kind := MethodKindTy |} = TNever.
Proof. reflexivity. Qed.




End Dispatch.

(** ** Association lists and messages *)

Section Messages.

Lemma assoc_In {A : Type} (l : list (string * A)) (n : string) (a : A) :
  assoc l n = Some a -> In (n, a) l.
Proof.
  induction l as [|[n' a'] l IH]; simpl; [discriminate|].
  destruct (String.eqb n' n) eqn:E.
  - intros [= ->]. apply String.eqb_eq in E. subst. now left.
  - intros H. right. now apply IH.
Qed.

Lemma In_assoc {A : Type} (l : list (string * A)) (n : string) (a : A) :
  NoDup (map fst l) -> In (n, a) l -> assoc l n = Some a.
Proof.
  induction l as [|[n' a'] l IH]; simpl; [contradiction|].
  intros Hnd [Heq | Hin].
  - injection Heq as -> ->. now rewrite String.eqb_refl.
  - inversion Hnd as [|? ? Hnotin Hnd']; subst.
    destruct (String.eqb n' n) eqn:E.
    + apply String.eqb_eq in E. subst. exfalso. apply Hnotin.
      change n with (fst (n, a)). now apply in_map.
    + now apply IH.
Qed.

Lemma same_kind_refl (x : Scalar) : same_kind x x = true.
Proof. now destruct x. Qed.

Lemma conforms_refl (schema : list (string * Scalar)) :
  conforms schema schema = true.
Proof.
  induction schema as [|[n d] schema IH]; simpl; [reflexivity|].
  now rewrite String.eqb_refl, same_kind_refl, IH.
Qed.

Lemma default_message_typed (m : MessageType) :
  has_type (TMessage m) (Sample.default_message m).
Proof. exists (fields m). split; [reflexivity | apply conforms_refl]. Qed.

Lemma message_is_partial (m : MessageType) (v : Val) :
  has_type (TMessage m) v -> has_type (TPartialMessage m) v.
Proof. intros H. now left. Qed.

Lemma OutputMessage_is_message (m : MessageType) (v : Val) :
  has_type (OutputMessage m) v -> is_message_value v = true.
Proof.
  intros [(fs & -> & _) | [(fs & -> & _) | (fs & -> & _)]]; reflexivity.
Qed.

Lemma partial_is_output (m : MessageType) (fs : list (string * Scalar)) :
  partial_for (fields m) fs = true -> has_type (OutputMessage m) (VPlain fs).
Proof. intros H. right. right. now exists fs. Qed.

Lemma full_is_output (m : MessageType) (v : Val) :
  has_type (TMessage m) v -> has_type (OutputMessage m) v.
Proof. intros H. now left. Qed.

(** Filling the gaps of a conforming object literal gives a conforming
    instance. *)
Lemma conforms_fill (fs sub : list (string * Scalar)) :
  (forall n d x, In (n, d) sub -> assoc fs n = Some x -> same_kind d x = true) ->
  conforms sub
    (map (fun nd => (fst nd, match assoc fs (fst nd) with
                             | Some x => x
                             | None => snd nd
                             end)) sub) = true.
Proof.
  induction sub as [|[n d] sub IH]; simpl; intros H; [reflexivity|].
  rewrite String.eqb_refl. simpl.
  rewrite IH by (intros; eapply H; [right|]; eassumption).
  destruct (assoc fs n) as [x|] eqn:E.
  - now rewrite (H n d x (or_introl eq_refl) E).
  - now rewrite same_kind_refl.
Qed.

Lemma partial_for_kind (schema fs : list (string * Scalar)) (n : string) (d x : Scalar) :
  NoDup (map fst schema) ->
  partial_for schema fs = true ->
  In (n, d) schema -> assoc fs n = Some x -> same_kind d x = true.
Proof.
  intros Hnd Hp Hin Hx.
  apply assoc_In in Hx.
  unfold partial_for in Hp. rewrite forallb_forall in Hp.
  specialize (Hp _ Hx). simpl in Hp.
  now rewrite (In_assoc schema n d Hnd Hin) in Hp.
Qed.

Lemma complete_typed (m : MessageType) (v : Val) :
  NoDup (map fst (fields m)) ->
  has_type (OutputMessage m) v -> has_type (TMessage m) (complete m v).
Proof.
  intros Hnd [H | [H | (fs & -> & Hp)]].
  - destruct H as (fs & -> & Hc). now exists fs.
  - destruct H as (fs & -> & Hc). now exists fs.
  - simpl. eexists. split; [reflexivity|].
    apply conforms_fill.
    intros n d x. now apply partial_for_kind.
Qed.

(** The scenario of the specification: the handler of a unary call with
    input [{id: 7}] returns the partial [{name: "x"}]; the completed
    message has [name = "x"] and [id] at its default, not the input's. *)
Example complete_scenario :
  complete Sample.User (VPlain [ ("name", SStr "x") ])
  = VMessage Sample.User [ ("id", SNum 0); ("name", SStr "x") ].
Proof. reflexivity. Qed.

End Messages.

(** ** Async iterables *)

Section Iterations.

Context {A : Type}.

Lemma generator_finite (l : list A) : finite (generator l).
Proof.
  intros [|p].
  - exists (List.length l). simpl. now apply nth_error_None.
  - now exists 0.
Qed.

Lemma generator_non_restartable (l : list A) : non_restartable (generator l).
Proof. intros p n. reflexivity. Qed.

Lemma generator_yields (l : list A) : yields (generator l) 0 (List.length l).
Proof.
  split; simpl.
  - now apply nth_error_None.
  - intros n Hn. now apply nth_error_Some.
Qed.

Lemma generator_In (l : list A) (p n : nat) (a : A) :
  generator l p n = Some a -> In a l.
Proof.
  destruct p; simpl; [|discriminate]. apply nth_error_In.
Qed.

Lemma replayable_restarts (a : A) (l : list A) :
  ~ non_restartable (replayable (a :: l)).
Proof. intros H. specialize (H 0 0). discriminate H. Qed.

Lemma endless_not_finite (a : A) : ~ finite (endless a).
Proof. intros H. destruct (H 0) as [n Hn]. discriminate Hn. Qed.

Lemma endless_restarts (a : A) : ~ non_restartable (endless a).
Proof. intros H. specialize (H 0 0). discriminate H. Qed.

End Iterations.

(** ** The four handler signatures *)

Section Signatures.

Variables A B : MessageType.

Lemma request_single_inv (v : Val) :
  has_type (TMessage A) v -> exists fs, v = VMessage A fs.
Proof. intros (fs & -> & _). now exists fs. Qed.

Lemma request_stream_inv (v : Val) :
  has_type (TAsyncIterable (TMessage A)) v ->
  exists it, v = VAsyncIterable it /\
             forall p n w, it p n = Some w -> exists fs, w = VMessage A fs.
Proof.
  intros (it & -> & H). exists it. split; [reflexivity|].
  intros p n w Hw. now apply request_single_inv, (H p n).
Qed.

Lemma generator_typed (t : Ty) (l : list Val) :
  Forall (has_type t) l -> has_type (TAsyncIterable t) (VAsyncIterable (generator l)).
Proof.
  intros H. exists (generator l). split; [reflexivity|].
  intros p n w Hw. rewrite Forall_forall in H. now apply H, (generator_In l p n).
Qed.

Lemma replayable_typed (t : Ty) (l : list Val) :
  Forall (has_type t) l -> has_type (TAsyncIterable t) (VAsyncIterable (replayable l)).
Proof.
  intros H. exists (replayable l). split; [reflexivity|].
  intros p n w Hw. rewrite Forall_forall in H. now apply H, (nth_error_In l n).
Qed.

Lemma endless_typed (t : Ty) (w : Val) :
  has_type t w -> has_type (TAsyncIterable t) (VAsyncIterable (endless w)).
Proof.
  intros H. exists (endless w). split; [reflexivity|].
  intros p n w' [= <-]. exact H.
Qed.

Lemma promise_result_inv (v : Val) :
  has_type (TPromise (OutputMessage B)) v ->
  exists m, v = VPromise m /\ output_of v = OneMessage Async m /\
            has_type (OutputMessage B) m.
Proof.
  intros (m & -> & H). exists m. repeat split; [|exact H].
  simpl. now rewrite (OutputMessage_is_message B m H).
Qed.

Lemma sync_result (m : Val) :
  has_type (OutputMessage B) m -> output_of m = OneMessage Sync m.
Proof.
  intros [(fs & -> & _) | [(fs & -> & _) | (fs & -> & _)]]; reflexivity.
Qed.

Lemma async_result (m : Val) :
  has_type (OutputMessage B) m -> output_of (VPromise m) = OneMessage Async m.
Proof. intros H. simpl. now rewrite (OutputMessage_is_message B m H). Qed.

Lemma stream_result_inv (v : Val) :
  has_type (TAsyncIterable (OutputMessage B)) v ->
  exists it, v = VAsyncIterable it /\ output_of v = MessageStream it /\
             forall p n w, it p n = Some w -> has_type (OutputMessage B) w.
Proof. intros (it & -> & H). exists it. auto. Qed.

Lemma streaming_output_returns (k : MethodKind) :
  returns_async_iterable (impl_of k A B) = streaming_output k.
Proof. now destruct k. Qed.

Lemma streaming_output_return_of (k : MethodKind) :
  streaming_output k = true ->
  return_of (impl_of k A B) = TAsyncIterable (OutputMessage B).
Proof. destruct k; simpl; intros H; try discriminate; reflexivity. Qed.

Lemma request_type_of_shape (k : MethodKind) :
  request_type (impl_of k A B)
  = if streaming_input k then TAsyncIterable (TMessage A) else TMessage A.
Proof. now destruct k. Qed.

Lemma return_of_shape (k : MethodKind) :
  return_of (impl_of k A B)
  = if streaming_output k then TAsyncIterable (OutputMessage B)
    else match k with
         | Unary => TUnion (TPromise (OutputMessage B)) (OutputMessage B)
         | _ => TPromise (OutputMessage B)
         end.
Proof. now destruct k. Qed.

Lemma every_signature_takes_context (k : MethodKind) :
  map snd (tl (params_of (impl_of k A B))) = [ HandlerContext ].
Proof. now destruct k. Qed.

End Signatures.

(** ** The unary shape *)

(** C2.  A unary handler takes exactly two arguments, one input message
    and the call context.  Every value of its result type delivers exactly
    one output message, either as the value itself or as the value a
    promise is fulfilled with, and both ways are open to every output
    message.  The message may be partial: any object literal that sets
    some of the declared fields is accepted, and completing it with the
    declared defaults gives a full message of the output type. *)
Theorem UnaryImpl_signature (A B : MessageType) :
  params_of (UnaryImpl A B)
    = [ ("request", TMessage A); ("context", HandlerContext) ] /\
  (forall v, has_type (request_type (UnaryImpl A B)) v ->
             exists fs, v = VMessage A fs) /\
  (forall v, has_type (return_of (UnaryImpl A B)) v ->
             exists d m, output_of v = OneMessage d m /\
                         has_type (OutputMessage B) m) /\
  (forall m, has_type (OutputMessage B) m ->
             has_type (return_of (UnaryImpl A B)) m /\
             output_of m = OneMessage Sync m /\
             has_type (return_of (UnaryImpl A B)) (VPromise m) /\
             output_of (VPromise m) = OneMessage Async m) /\
  (forall fs, partial_for (fields B) fs = true ->
              has_type (OutputMessage B) (VPlain fs)) /\
  (NoDup (map fst (fields B)) ->
   forall m, has_type (OutputMessage B) m ->
             has_type (TMessage B) (complete B m)).
Proof.
  split; [reflexivity|].
  split; [apply request_single_inv|].
  split.
  { intros v [H | H].
    - destruct (promise_result_inv B v H) as (m & _ & Ho & Hm).
      now exists Async, m.
    - exists Sync, v. split; [now apply (sync_result B) | exact H]. }
  split.
  { intros m H. repeat split.
    - now right.
    - now apply (sync_result B).
    - left. now exists m.
    - now apply (async_result B). }
  split; [apply partial_is_output|].
  intros Hnd m. now apply complete_typed.
Qed.

Lemma UnaryImpl_signature_witness :
  has_type (return_of (UnaryImpl Sample.GetUserRequest Sample.User))
           (VPlain [ ("name", SStr "x") ]) /\
  has_type (TMessage Sample.User)
           (complete Sample.User (VPlain [ ("name", SStr "x") ])).
Proof.
  destruct (UnaryImpl_signature Sample.GetUserRequest Sample.User)
    as (_ & _ & _ & Hout & Hpartial & Hcomplete).
  assert (Hp : has_type (OutputMessage Sample.User) (VPlain [ ("name", SStr "x") ])).
  { apply Hpartial. reflexivity. }
  split.
  - apply (Hout _ Hp).
  - apply Hcomplete; [|exact Hp].
    simpl. repeat constructor; simpl; intuition discriminate.
Defined.

(** ** The client-streaming shape *)

(** C3 as stated fails: the request type of a client-streaming handler
    is not a type of finite, non-restartable sequences.  It admits an
    iterable that never ends, and a finite one that starts afresh at
    every iteration. *)
Lemma ClientStreamingImpl_request_not_finite :
  ~ finite_single_pass
      (request_type (ClientStreamingImpl Sample.GetUserRequest Sample.User)) /\
  (has_type (request_type (ClientStreamingImpl Sample.GetUserRequest Sample.User))
            (VAsyncIterable (endless (Sample.default_message Sample.GetUserRequest))) /\
   ~ finite (endless (Sample.default_message Sample.GetUserRequest))) /\
  (has_type (request_type (ClientStreamingImpl Sample.GetUserRequest Sample.User))
            (VAsyncIterable (replayable [ Sample.default_message Sample.GetUserRequest ])) /\
   ~ non_restartable (replayable [ Sample.default_message Sample.GetUserRequest ])).
Proof.
  assert (He : has_type
                 (request_type (ClientStreamingImpl Sample.GetUserRequest Sample.User))
                 (VAsyncIterable (endless (Sample.default_message Sample.GetUserRequest))))
    by apply endless_typed, default_message_typed.
  split; [|split; split].
  - intros H. destruct (H _ He) as (it & E & Hfin & _).
    injection E as <-. now apply endless_not_finite in Hfin.
  - exact He.
  - apply endless_not_finite.
  - apply replayable_typed. apply Forall_cons; [|apply Forall_nil].
    apply default_message_typed.
  - apply replayable_restarts.
Qed.

(** C3, as the signature has it.  A client-streaming handler takes
    exactly two arguments, an async iterable of input messages and the
    call context.  The elements of the iterable are input messages,
    obtained one [next()] at a time; a generator over any finite list of
    input messages is accepted, the empty list included, and the signature
    asks neither for an end nor for a single pass.  Every value of the
    result type is a promise that delivers exactly one output message,
    full or partial; the result type is the same whatever the input
    yields, zero messages included. *)
Theorem ClientStreamingImpl_signature (A B : MessageType) :
  params_of (ClientStreamingImpl A B)
    = [ ("requests", TAsyncIterable (TMessage A)); ("context", HandlerContext) ] /\
  (forall v, has_type (request_type (ClientStreamingImpl A B)) v ->
             exists it, v = VAsyncIterable it /\
               forall p n w, it p n = Some w -> exists fs, w = VMessage A fs) /\
  (forall l, Forall (has_type (TMessage A)) l ->
             has_type (request_type (ClientStreamingImpl A B))
                      (VAsyncIterable (generator l)) /\
             finite (generator l) /\ non_restartable (generator l)) /\
  (has_type (request_type (ClientStreamingImpl A B))
            (VAsyncIterable (generator [])) /\
   yields (generator (@nil Val)) 0 0) /\
  (forall v, has_type (return_of (ClientStreamingImpl A B)) v ->
             exists m, v = VPromise m /\ output_of v = OneMessage Async m /\
                       has_type (OutputMessage B) m) /\
  (forall m, has_type (OutputMessage B) m ->
             has_type (return_of (ClientStreamingImpl A B)) (VPromise m)) /\
  (forall fs, partial_for (fields B) fs = true ->
              has_type (return_of (ClientStreamingImpl A B)) (VPromise (VPlain fs))).
Proof.
  split; [reflexivity|].
  split; [apply request_stream_inv|].
  split.
  { intros l Hl. split; [now apply generator_typed|].
    split; [apply generator_finite | apply generator_non_restartable]. }
  split.
  { split; [now apply generator_typed | apply (generator_yields (@nil Val))]. }
  split; [apply promise_result_inv|].
  split.
  - intros m H. now exists m.
  - intros fs H. exists (VPlain fs). split; [reflexivity|].
    now apply partial_is_output.
Qed.

Lemma ClientStreamingImpl_signature_witness :
  has_type (request_type (ClientStreamingImpl Sample.GetUserRequest Sample.User))
           (VAsyncIterable
              (generator [ Sample.default_message Sample.GetUserRequest ])) /\
  has_type (return_of (ClientStreamingImpl Sample.GetUserRequest Sample.User))
           (VPromise (VPlain [ ("name", SStr "x") ])).
Proof.
  destruct (ClientStreamingImpl_signature Sample.GetUserRequest Sample.User)
    as (_ & _ & Hgen & _ & _ & _ & Hpartial).
  split.
  - apply Hgen. apply Forall_cons; [|apply Forall_nil].
    apply default_message_typed.
  - apply Hpartial. reflexivity.
Defined.

(** ** The shapes with a streamed response *)

(** C4 as stated fails: the result type of a server-streaming handler is
    not a type of finite, non-restartable sequences.  It admits an iterable
    that never ends, and a finite one that starts afresh at every
    iteration. *)
Lemma ServerStreamingImpl_result_not_finite :
  ~ finite_single_pass
      (return_of (ServerStreamingImpl Sample.GetUserRequest Sample.User)) /\
  (has_type (return_of (ServerStreamingImpl Sample.GetUserRequest Sample.User))
            (VAsyncIterable (endless (Sample.default_message Sample.User))) /\
   ~ finite (endless (Sample.default_message Sample.User))) /\
  (has_type (return_of (ServerStreamingImpl Sample.GetUserRequest Sample.User))
            (VAsyncIterable (replayable [ Sample.default_message Sample.User ])) /\
   ~ non_restartable (replayable [ Sample.default_message Sample.User ])).
Proof.
  assert (He : has_type
                 (return_of (ServerStreamingImpl Sample.GetUserRequest Sample.User))
                 (VAsyncIterable (endless (Sample.default_message Sample.User))))
    by apply endless_typed, full_is_output, default_message_typed.
  split; [|split; split].
  - intros H. destruct (H _ He) as (it & E & Hfin & _).
    injection E as <-. now apply endless_not_finite in Hfin.
  - exact He.
  - apply endless_not_finite.
  - apply replayable_typed. apply Forall_cons; [|apply Forall_nil].
    apply full_is_output, default_message_typed.
  - apply replayable_restarts.
Qed.

(** C4, as the signatures have it.  A server-streaming handler takes one
    input message and the context; a bidi-streaming handler takes an async
    iterable of input messages and the context.  Both return an async
    iterable whose elements, obtained one [next()] at a time, are output
    messages; a generator over any finite list of output messages is
    accepted, the empty list included, and the signatures ask neither for
    an end nor for a single pass of the iterables on either side. *)
Theorem streaming_response_signatures (A B : MessageType) :
  params_of (ServerStreamingImpl A B)
    = [ ("request", TMessage A); ("context", HandlerContext) ] /\
  params_of (BiDiStreamingImpl A B)
    = [ ("requests", TAsyncIterable (TMessage A)); ("context", HandlerContext) ] /\
  (forall v, has_type (request_type (ServerStreamingImpl A B)) v ->
             exists fs, v = VMessage A fs) /\
  (forall v, has_type (request_type (BiDiStreamingImpl A B)) v ->
             exists it, v = VAsyncIterable it /\
               forall p n w, it p n = Some w -> exists fs, w = VMessage A fs) /\
  return_of (BiDiStreamingImpl A B) = return_of (ServerStreamingImpl A B) /\
  (forall v, has_type (return_of (ServerStreamingImpl A B)) v ->
             exists it, v = VAsyncIterable it /\ output_of v = MessageStream it /\
               forall p n w, it p n = Some w -> has_type (OutputMessage B) w) /\
  (forall l, Forall (has_type (OutputMessage B)) l ->
             has_type (return_of (ServerStreamingImpl A B))
                      (VAsyncIterable (generator l)) /\
             finite (generator l) /\ non_restartable (generator l)) /\
  (forall l, Forall (has_type (TMessage A)) l ->
             has_type (request_type (BiDiStreamingImpl A B))
                      (VAsyncIterable (generator l))) /\
  (has_type (return_of (ServerStreamingImpl A B)) (VAsyncIterable (generator [])) /\
   yields (generator (@nil Val)) 0 0).
Proof.
  split; [reflexivity|].
  split; [reflexivity|].
  split; [apply request_single_inv|].
  split; [apply request_stream_inv|].
  split; [reflexivity|].
  split; [apply stream_result_inv|].
  split.
  { intros l Hl. split; [now apply generator_typed|].
    split; [apply generator_finite | apply generator_non_restartable]. }
  split; [intros l Hl; now apply generator_typed|].
  split; [now apply generator_typed | apply (generator_yields (@nil Val))].
Qed.

Lemma streaming_response_signatures_witness :
  has_type (return_of (ServerStreamingImpl Sample.GetUserRequest Sample.User))
           (VAsyncIterable (generator [ Sample.default_message Sample.User ])) /\
  has_type (request_type (BiDiStreamingImpl Sample.GetUserRequest Sample.User))
           (VAsyncIterable (generator [ Sample.default_message Sample.GetUserRequest ])).
Proof.
  destruct (streaming_response_signatures Sample.GetUserRequest Sample.User)
    as (_ & _ & _ & _ & _ & _ & Hout & Hin & _).
  split.
  - apply Hout. apply Forall_cons; [|apply Forall_nil].
    apply full_is_output, default_message_typed.
  - apply Hin. apply Forall_cons; [|apply Forall_nil].
    apply default_message_typed.
Defined.

(** ** Synchronous results *)

(** C9.  Of the four shapes only the unary one has a result type with a
    value that is itself the output message.  Every value of the
    client-streaming result type is a promise: it delivers its one output
    message asynchronously, and no message value has that type.  As
    written, the client-streaming result type is the promise alone, where
    the unary one is the union of the promise with the two message
    types. *)
Theorem sync_result_only_unary (A B : MessageType) :
  (forall k : MethodKind,
      (exists v m, has_type (return_of (impl_of k A B)) v /\
                   output_of v = OneMessage Sync m) <-> k = Unary) /\
  (forall v, has_type (return_of (ClientStreamingImpl A B)) v ->
             exists m, v = VPromise m /\ output_of v = OneMessage Async m /\
                       has_type (OutputMessage B) m) /\
  (forall v, is_message_value v = true ->
             ~ has_type (return_of (ClientStreamingImpl A B)) v) /\
  union_members (return_of (ClientStreamingImpl A B))
    = [ TPromise (OutputMessage B) ] /\
  union_members (return_of (UnaryImpl A B))
    = [ TPromise (OutputMessage B); TMessage B; TPartialMessage B ].
Proof.
  split.
  { intros k. split.
    - intros (v & m & Hv & Ho). destruct k; [reflexivity | exfalso ..].
      + destruct (stream_result_inv B v Hv) as (it & _ & Hs & _). congruence.
      + destruct (promise_result_inv B v Hv) as (m' & _ & Hs & _). congruence.
      + destruct (stream_result_inv B v Hv) as (it & _ & Hs & _). congruence.
    - intros ->. exists (Sample.default_message B), (Sample.default_message B).
      split; [|reflexivity].
      right. apply full_is_output, default_message_typed. }
  split; [apply promise_result_inv|].
  split; [|split; reflexivity].
  intros v Hm (m & -> & _). discriminate Hm.
Qed.

Lemma sync_result_only_unary_witness :
  (exists v m,
      has_type (return_of (impl_of Unary Sample.GetUserRequest Sample.User)) v /\
      output_of v = OneMessage Sync m) /\
  ~ has_type (return_of (ClientStreamingImpl Sample.GetUserRequest Sample.User))
             (Sample.default_message Sample.User).
Proof.
  destruct (sync_result_only_unary Sample.GetUserRequest Sample.User)
    as (Honly & _ & Hnot & _).
  split.
  - apply (Honly Unary). reflexivity.
  - apply Hnot. reflexivity.
Defined.

(** ** Partial messages in streamed responses *)

(** C10.  For the two shapes with a streamed response, any async iterable
    whose elements are output messages, full or partial, is a value of the
    result type; in particular one whose every element is a partial
    message. *)
Theorem streamed_elements_may_be_partial (A B : MessageType) (k : MethodKind) :
  streaming_output k = true ->
  (forall it : Iteration Val,
      (forall p n w, it p n = Some w -> has_type (OutputMessage B) w) ->
      has_type (return_of (impl_of k A B)) (VAsyncIterable it)) /\
  (forall l : list (list (string * Scalar)),
      Forall (fun fs => partial_for (fields B) fs = true) l ->
      has_type (return_of (impl_of k A B))
               (VAsyncIterable (generator (map VPlain l)))) /\
  (forall fs v, partial_for (fields B) fs = true ->
                has_type (TMessage B) v ->
                has_type (return_of (impl_of k A B))
                         (VAsyncIterable (generator [ VPlain fs; v ]))).
Proof.
  intros Hk. rewrite (streaming_output_return_of A B k Hk).
  split.
  { intros it H. now exists it. }
  split.
  { intros l Hl. apply generator_typed. rewrite Forall_forall in *.
    intros w Hw. apply in_map_iff in Hw as (fs & <- & Hfs).
    now apply partial_is_output, Hl. }
  intros fs v Hfs Hv. apply generator_typed.
  apply Forall_cons; [now apply partial_is_output|].
  apply Forall_cons; [now apply full_is_output | apply Forall_nil].
Qed.

Lemma streamed_elements_may_be_partial_witness :
  has_type (return_of (BiDiStreamingImpl Sample.GetUserRequest Sample.User))
           (VAsyncIterable
              (generator (map VPlain [ [ ("name", SStr "x") ]; [] ]))).
Proof.
  destruct (streamed_elements_may_be_partial
              Sample.GetUserRequest Sample.User BiDiStreaming eq_refl)
    as (_ & Hpartial & _).
  apply Hpartial.
  apply Forall_cons; [reflexivity|].
  apply Forall_cons; [reflexivity | apply Forall_nil].
Defined.

(** ** The call context at run time *)

Import Runtime.

Section CallLifecycle.

Lemma run_app (t t' : list Event) (c : Call) :
  run (t ++ t') c = run t' (run t c).
Proof. apply fold_left_app. Qed.

Lemma run_cons (e : Event) (t : list Event) (c : Call) :
  run (e :: t) c = run t (step c e).
Proof. reflexivity. Qed.

Lemma step_deadline (c : Call) (e : Event) : deadline (step c e) = deadline c.
Proof.
  destruct e as [ms| |op]; simpl; try reflexivity.
  now destruct (expired _).
Qed.

Lemma run_deadline (t : list Event) (c : Call) : deadline (run t c) = deadline c.
Proof.
  revert c. induction t as [|e t IH]; intros c; [reflexivity|].
  now rewrite run_cons, IH, step_deadline.
Qed.

Lemma step_protocol (c : Call) (e : Event) : protocol (step c e) = protocol c.
Proof.
  destruct e as [ms| |op]; simpl; try reflexivity.
  now destruct (expired _).
Qed.

Lemma run_protocol (t : list Event) (c : Call) : protocol (run t c) = protocol c.
Proof.
  revert c. induction t as [|e t IH]; intros c; [reflexivity|].
  now rewrite run_cons, IH, step_protocol.
Qed.

(** The clock never runs backwards. *)
Lemma step_now (c : Call) (e : Event) : (now c <= now (step c e))%Z.
Proof.
  destruct e as [ms| |op]; simpl; try lia.
  destruct (expired _); simpl; lia.
Qed.

Lemma run_now (t : list Event) (c : Call) : (now c <= now (run t c))%Z.
Proof.
  revert c. induction t as [|e t IH]; intros c; simpl; [lia|].
  specialize (IH (step c e)). pose proof (step_now c e).
  change (fold_left step t (step c e)) with (run t (step c e)). lia.
Qed.

Lemma timeoutMs_run (t : list Event) (c : Call) :
  timeoutMs (run t c) = remaining (deadline c) (now (run t c)).
Proof. unfold timeoutMs. now rewrite run_deadline. Qed.

Lemma number_or_undefined_typed (r : option Z) :
  has_type (TUnion TNumber TUndefined) (number_or_undefined r).
Proof. destruct r as [ms|]; [left; now exists ms | now right]. Qed.

(** What the runtime hands to the handler is a [HandlerContext]. *)
Lemma context_value_typed (c : Call) : has_type HandlerContext (context_value c).
Proof.
  eexists. split; [reflexivity|]. simpl.
  repeat split; eexists; (split; [reflexivity|]); simpl; eauto.
  eexists. split; [reflexivity|]. intros t. apply number_or_undefined_typed.
Qed.

(** C5.  A context without a deadline answers [timeoutMs()] with
    [undefined].  A context with one answers with the time left until the
    deadline fixed at construction, computed from the time of the query
    and never below zero; so of two queries the later one does not answer
    more, answers less if time has passed and some was left, and answers
    zero once zero has been answered.  The member [timeoutMs] of the
    context object gives this answer, a value of the declared result type
    [number | undefined]. *)
Theorem timeoutMs_remaining_time (i : Init) (t1 t2 : list Event) :
  let c1 := run t1 (create i) in
  let c2 := run t2 c1 in
  (init_timeoutMs i = None -> timeoutMs c1 = None /\ timeoutMs c2 = None) /\
  (forall ms, init_timeoutMs i = Some ms ->
     exists r1 r2,
       timeoutMs c1 = Some r1 /\ timeoutMs c2 = Some r2 /\
       r1 = Z.max 0 (init_now i + Z.of_N ms - now c1) /\
       r2 = Z.max 0 (init_now i + Z.of_N ms - now c2) /\
       0 <= r2 /\ r2 <= r1 /\
       (r1 = 0 -> r2 = 0) /\
       (now c1 < now c2 -> 0 < r1 -> r2 < r1))%Z /\
  (exists f, member_value (context_value c1) "timeoutMs" = Some (VThunk f) /\
             f (now c1) = number_or_undefined (timeoutMs c1) /\
             has_type (return_of (TFun [] (TUnion TNumber TUndefined))) (f (now c1))).
Proof.
  intros c1 c2.
  assert (Hnow : (now c1 <= now c2)%Z) by apply run_now.
  assert (E1 : timeoutMs c1 = remaining (deadline (create i)) (now c1))
    by apply timeoutMs_run.
  assert (E2 : timeoutMs c2 = remaining (deadline (create i)) (now c2)).
  { unfold c2. rewrite timeoutMs_run. unfold c1. now rewrite run_deadline. }
  simpl in E1, E2.
  split; [|split].
  - intros H. rewrite H in E1, E2. now split.
  - intros ms H. rewrite H in E1, E2. simpl in E1, E2.
    eexists. eexists.
    split; [exact E1|]. split; [exact E2|].
    repeat split; lia.
  - eexists. split; [reflexivity|]. split; [reflexivity|].
    apply number_or_undefined_typed.
Qed.

Lemma timeoutMs_remaining_time_witness :
  timeoutMs (run [ Elapse 400; Handler Observe; Elapse 700 ]
                 (create {| init_shape := Unary; init_protocol := Grpc;
                            init_requestMethod := "POST";
                            init_requestHeader := [];
                            init_timeoutMs := Some 1000%N;
                            init_now := 5000 |})) = Some 0%Z.
Proof.
  destruct (timeoutMs_remaining_time
              {| init_shape := Unary; init_protocol := Grpc;
                 init_requestMethod := "POST"; init_requestHeader := [];
                 init_timeoutMs := Some 1000%N; init_now := 5000 |}
              [ Elapse 400 ] [ Handler Observe; Elapse 700 ])
    as (_ & H & _).
  destruct (H 1000%N eq_refl) as (r1 & r2 & _ & E2 & _ & -> & _).
  exact E2.
Defined.

(** *** The cancellation signal *)

Lemma fire_aborted (s : Signal) : aborted (fire s) = true.
Proof. unfold fire. destruct (aborted s) eqn:E; [exact E | reflexivity]. Qed.

Lemma fire_idempotent (s : Signal) : aborted s = true -> fire s = s.
Proof. unfold fire. now intros ->. Qed.

Lemma fire_ok (s : Signal) : signal_ok s -> signal_ok (fire s).
Proof.
  unfold signal_ok, fire. destruct (aborted s) eqn:E; simpl.
  - now rewrite E.
  - now intros ->.
Qed.

Lemma step_signal_ok (c : Call) (e : Event) :
  signal_ok (signal c) -> signal_ok (signal (step c e)).
Proof.
  intros H. destruct e as [ms| |op]; simpl.
  - destruct (expired _); simpl; [now apply fire_ok | exact H].
  - now apply fire_ok.
  - exact H.
Qed.

Lemma run_signal_ok (t : list Event) (c : Call) :
  signal_ok (signal c) -> signal_ok (signal (run t c)).
Proof.
  revert c. induction t as [|e t IH]; intros c H; [exact H|].
  rewrite run_cons. now apply IH, step_signal_ok.
Qed.

Lemma step_handler_signal (c : Call) (op : HandlerOp) :
  signal (step c (Handler op)) = signal c.
Proof. reflexivity. Qed.

Lemma step_aborted_stays (c : Call) (e : Event) :
  aborted (signal c) = true -> signal (step c e) = signal c.
Proof.
  intros H. destruct e as [ms| |op]; simpl.
  - destruct (expired _); simpl; [now apply fire_idempotent | reflexivity].
  - now apply fire_idempotent.
  - reflexivity.
Qed.

Lemma run_aborted_stays (t : list Event) (c : Call) :
  aborted (signal c) = true -> signal (run t c) = signal c.
Proof.
  revert c. induction t as [|e t IH]; intros c H; [reflexivity|].
  rewrite run_cons, IH; rewrite step_aborted_stays; auto.
Qed.

Lemma step_fires_cause (c : Call) (e : Event) :
  aborted (signal c) = false -> aborted (signal (step c e)) = true ->
  e = ClientDisconnect \/
  exists ms d, e = Elapse ms /\ deadline c = Some d /\ (d <= now c + Z.of_N ms)%Z.
Proof.
  intros Hact Hab. destruct e as [ms| |op].
  - right. simpl in Hab. unfold expired in Hab. simpl in Hab.
    destruct (deadline c) as [d|] eqn:Ed.
    + destruct (d <=? now c + Z.of_N ms)%Z eqn:El.
      * exists ms, d. repeat split. now apply Z.leb_le.
      * simpl in Hab. congruence.
    + simpl in Hab. congruence.
  - now left.
  - simpl in Hab. congruence.
Qed.

(** C6.  Along every run of a call the signal goes from active to
    cancelled at most once: the count of such transitions is 0 while the
    signal is active and 1 once it is cancelled.  A step that cancels an
    active signal is a client disconnect or the passing of time to or
    beyond the deadline; no action of the handler changes the signal.
    Once cancelled, the signal is the same after any further events.  Both
    causes act on the one signal and leave it in the same state; the
    context interface has a single member of type [AbortSignal] and hands
    the handler no [AbortController]. *)
Theorem signal_cancelled_once (i : Init) (t t' : list Event) :
  let c := run t (create i) in
  fired (signal c) <= 1 /\
  (aborted (signal c) = true <-> fired (signal c) = 1) /\
  (forall e, aborted (signal c) = false ->
             aborted (signal (step c e)) = true ->
             e = ClientDisconnect \/
             exists ms d, e = Elapse ms /\ deadline c = Some d /\
                          (d <= now c + Z.of_N ms)%Z) /\
  (forall op, signal (step c (Handler op)) = signal c) /\
  (aborted (signal c) = true ->
   signal (run t' c) = signal c /\ aborted (signal (run t' c)) = true) /\
  (forall ms d, deadline c = Some d -> (d <= now c + Z.of_N ms)%Z ->
                signal (step c (Elapse ms)) = signal (step c ClientDisconnect) /\
                aborted (signal (step c ClientDisconnect)) = true) /\
  (members_of_type "AbortSignal" HandlerContext = [ "signal" ] /\
   members_of_type "AbortController" HandlerContext = []).
Proof.
  intros c.
  assert (Hok : signal_ok (signal c)) by (apply run_signal_ok; reflexivity).
  unfold signal_ok in Hok.
  split; [destruct (aborted (signal c)); lia|].
  split; [destruct (aborted (signal c)); split; intros; (lia || congruence)|].
  split; [apply step_fires_cause|].
  split; [apply step_handler_signal|].
  split.
  { intros H. rewrite run_aborted_stays by exact H. now split. }
  split; [|split; reflexivity].
  intros ms d Hd Hle. simpl. unfold expired. simpl. rewrite Hd.
  apply Z.leb_le in Hle. rewrite Hle. simpl. split; [reflexivity|].
  apply fire_aborted.
Qed.

Lemma signal_cancelled_once_witness :
  signal (run [ Handler Observe; Elapse 2000; ClientDisconnect ]
              (run [ Handler Observe; ClientDisconnect ]
                   (create {| init_shape := BiDiStreaming; init_protocol := Connect;
                              init_requestMethod := "POST";
                              init_requestHeader := [];
                              init_timeoutMs := Some 1000%N;
                              init_now := 0 |})))
  = {| aborted := true; fired := 1 |}.
Proof.
  destruct (signal_cancelled_once
              {| init_shape := BiDiStreaming; init_protocol := Connect;
                 init_requestMethod := "POST"; init_requestHeader := [];
                 init_timeoutMs := Some 1000%N; init_now := 0 |}
              [ Handler Observe; ClientDisconnect ]
              [ Handler Observe; Elapse 2000; ClientDisconnect ])
    as (_ & _ & _ & _ & Hstays & _).
  destruct (Hstays eq_refl) as [-> _]. reflexivity.
Defined.

(** *** The protocol name *)

(** The declared type of the member is [string]. *)
Remark protocolName_declared :
  member_type HandlerContext "protocolName" = Some TString.
Proof. reflexivity. Qed.

(** C7.  The protocol name of every call context is one of the three
    names "connect", "grpc" and "grpc-web", the names of the protocols
    the runtime knows, and it is the same throughout the call; the three
    names are different, and each is a value of the declared type of the
    member. *)
Theorem protocolName_fixed_set (c : Call) (t : list Event) :
  (exists s, member_value (context_value (run t c)) "protocolName"
               = Some (VString s) /\
             s = protocol_name (protocol c) /\
             In s protocolNames) /\
  protocolNames = map protocol_name [ Connect; Grpc; GrpcWeb ] /\
  NoDup protocolNames /\
  (forall s, In s protocolNames ->
     forall ty, member_type HandlerContext "protocolName" = Some ty ->
                has_type ty (VString s)).
Proof.
  split.
  { exists (protocol_name (protocol (run t c))).
    split; [reflexivity|]. rewrite run_protocol. split; [reflexivity|].
    destruct (protocol c); simpl; auto. }
  split; [reflexivity|].
  split.
  { repeat constructor; simpl; intuition discriminate. }
  intros s _ ty [= <-]. now exists s.
Qed.

Lemma protocolName_fixed_set_witness :
  has_type TString (VString "grpc-web").
Proof.
  destruct (protocolName_fixed_set
              (create {| init_shape := Unary; init_protocol := GrpcWeb;
                         init_requestMethod := "POST"; init_requestHeader := [];
                         init_timeoutMs := None; init_now := 0 |}) [])
    as (_ & _ & _ & H).
  apply (H "grpc-web").
  - simpl. auto.
  - reflexivity.
Defined.

End CallLifecycle.

(** ** The response: headers before output *)

Section ResponseHeaders.

Lemma response_step (c : Call) (e : Event) :
  response (step c e) = respond_event (response c) e.
Proof.
  destruct e as [ms| |op]; simpl; try reflexivity.
  now destruct (expired _).
Qed.

Lemma response_run (t : list Event) (c : Call) :
  response (run t c) = fold_left respond_event t (response c).
Proof.
  revert c. induction t as [|e t IH]; intros c; [reflexivity|].
  now rewrite run_cons, IH, response_step.
Qed.

Lemma forallb_app_one (rest : list Frame) (f : Frame) :
  forallb is_output rest = true -> is_output f = true ->
  forallb is_output (rest ++ [f]) = true.
Proof. intros H Hf. rewrite forallb_app, H. simpl. now rewrite Hf. Qed.

Lemma respond_ended (op : HandlerOp) (r : Response) :
  ended r = true -> respond op r = r.
Proof. unfold respond. now intros ->. Qed.

Lemma respond_frozen_eq (op : HandlerOp) (r : Response) :
  ended r = false -> frozen r = true ->
  respond op r =
  match op with
  | Observe | SetResponseHeader _ _ => r
  | SetResponseTrailer k v =>
      {| responseHeader := responseHeader r;
         responseTrailer := responseTrailer r ++ [(k, v)];
         frozen := frozen r; ended := ended r; wire := wire r |}
  | Yield m => send (FMessage m) r
  | Return => finish true r
  | Throw => finish false r
  end.
Proof.
  intros He Hf. unfold respond, freeze. rewrite He, Hf. reflexivity.
Qed.

Lemma respond_open_eq (op : HandlerOp) (r : Response) :
  ended r = false -> frozen r = false ->
  respond op r =
  match op with
  | Observe => r
  | SetResponseHeader k v =>
      {| responseHeader := responseHeader r ++ [(k, v)];
         responseTrailer := responseTrailer r;
         frozen := false; ended := false; wire := wire r |}
  | SetResponseTrailer k v =>
      {| responseHeader := responseHeader r;
         responseTrailer := responseTrailer r ++ [(k, v)];
         frozen := false; ended := false; wire := wire r |}
  | Yield m =>
      {| responseHeader := responseHeader r;
         responseTrailer := responseTrailer r;
         frozen := true; ended := false;
         wire := (wire r ++ [FHeader (responseHeader r)]) ++ [FMessage m] |}
  | Return =>
      {| responseHeader := responseHeader r;
         responseTrailer := responseTrailer r;
         frozen := true; ended := true;
         wire := (wire r ++ [FHeader (responseHeader r)])
                   ++ [FEnd true (responseTrailer r)] |}
  | Throw =>
      {| responseHeader := responseHeader r;
         responseTrailer := responseTrailer r;
         frozen := true; ended := true;
         wire := (wire r ++ [FHeader (responseHeader r)])
                   ++ [FEnd false (responseTrailer r)] |}
  end.
Proof.
  intros He Hf. unfold respond, freeze, send, finish. rewrite He, Hf.
  destruct op; simpl; rewrite ?He, ?Hf; reflexivity.
Qed.

Lemma respond_ok (op : HandlerOp) (r : Response) :
  response_ok r -> response_ok (respond op r).
Proof.
  intros H.
  destruct (ended r) eqn:Ee; [now rewrite respond_ended|].
  destruct (frozen r) eqn:Ef.
  - rewrite respond_frozen_eq by assumption.
    unfold response_ok in *. rewrite Ef in H. destruct H as (rest & Hw & Hout).
    destruct op; simpl; rewrite ?Ef;
      try (exists rest; now split);
      (eexists; split; [rewrite Hw; apply app_comm_cons|];
       now apply forallb_app_one).
  - rewrite respond_open_eq by assumption.
    unfold response_ok in *. rewrite Ef in H. destruct H as (Hw & _).
    destruct op; simpl; rewrite ?Ef, ?Ee;
      try (now split);
      rewrite Hw; simpl; eexists; (split; [reflexivity|reflexivity]).
Qed.

Lemma respond_event_ok (e : Event) (r : Response) :
  response_ok r -> response_ok (respond_event r e).
Proof. destruct e; simpl; auto using respond_ok. Qed.

Lemma fold_respond_ok (t : list Event) (r : Response) :
  response_ok r -> response_ok (fold_left respond_event t r).
Proof.
  revert r. induction t as [|e t IH]; intros r H; [exact H|].
  simpl. now apply IH, respond_event_ok.
Qed.

(** Once frozen, the headers stay as they are and the wire only grows,
    by output. *)
Lemma respond_frozen (op : HandlerOp) (r : Response) :
  frozen r = true ->
  frozen (respond op r) = true /\
  responseHeader (respond op r) = responseHeader r /\
  exists more, wire (respond op r) = wire r ++ more /\
               forallb is_output more = true.
Proof.
  intros Hf. unfold respond.
  destruct (ended r).
  { repeat split; auto. exists []. now rewrite app_nil_r. }
  destruct op; simpl; unfold freeze; rewrite ?Hf; simpl;
    repeat split; auto;
    try (exists []; now rewrite app_nil_r);
    (eexists; split; [reflexivity|reflexivity]).
Qed.

Lemma fold_respond_frozen (t : list Event) (r : Response) :
  frozen r = true ->
  frozen (fold_left respond_event t r) = true /\
  responseHeader (fold_left respond_event t r) = responseHeader r /\
  exists more, wire (fold_left respond_event t r) = wire r ++ more /\
               forallb is_output more = true.
Proof.
  revert r. induction t as [|e t IH]; intros r Hf; simpl.
  { repeat split; auto. exists []. now rewrite app_nil_r. }
  assert (H : frozen (respond_event r e) = true /\
              responseHeader (respond_event r e) = responseHeader r /\
              exists more, wire (respond_event r e) = wire r ++ more /\
                           forallb is_output more = true).
  { destruct e; simpl; try apply respond_frozen; auto;
      (repeat split; auto; exists []; now rewrite app_nil_r). }
  destruct H as (Hf' & Hh & more & Hw & Hm).
  destruct (IH _ Hf') as (Hf'' & Hh' & more' & Hw' & Hm').
  repeat split; [exact Hf'' | congruence |].
  exists (more ++ more'). split.
  - now rewrite Hw', Hw, app_assoc.
  - now rewrite forallb_app, Hm, Hm'.
Qed.

(** A run without output leaves the headers open and collects what the
    handler sets. *)
Lemma fold_respond_silent (t : list Event) (r : Response) :
  forallb silent t = true -> frozen r = false -> ended r = false ->
  frozen (fold_left respond_event t r) = false /\
  ended (fold_left respond_event t r) = false /\
  wire (fold_left respond_event t r) = wire r /\
  responseHeader (fold_left respond_event t r) = responseHeader r ++ headers_set t.
Proof.
  revert r. induction t as [|e t IH]; intros r Hs Hf He; simpl.
  { repeat split; auto. now rewrite app_nil_r. }
  simpl in Hs. apply andb_prop in Hs as [Hse Hst].
  destruct e as [ms| |op]; simpl.
  - now apply IH.
  - now apply IH.
  - rewrite respond_open_eq by assumption.
    destruct op; simpl in Hse; try discriminate.
    + now apply IH.
    + destruct (IH {| responseHeader := responseHeader r ++ [(key, value)];
                      responseTrailer := responseTrailer r;
                      frozen := false; ended := false; wire := wire r |}
                   Hst eq_refl eq_refl) as (H1 & H2 & H3 & H4).
      repeat split; auto. rewrite H4. simpl. now rewrite <- app_assoc.
    + destruct (IH {| responseHeader := responseHeader r;
                      responseTrailer := responseTrailer r ++ [(key, value)];
                      frozen := false; ended := false; wire := wire r |}
                   Hst eq_refl eq_refl) as (H1 & H2 & H3 & H4).
      repeat split; auto.
Qed.

Lemma fold_respond_ended (t : list Event) (r : Response) :
  ended r = true -> fold_left respond_event t r = r.
Proof.
  intros He. induction t as [|e t IH]; [reflexivity|]. simpl.
  destruct e; simpl; rewrite ?respond_ended by exact He; exact IH.
Qed.

Lemma create_response_ok (i : Init) : response_ok (response (create i)).
Proof. now split. Qed.

(** C8.  In every run of a call, and so for the server-streaming and
    bidi-streaming shapes, the wire is empty while the outbound headers
    are open, and once they are frozen the wire starts with the header
    frame, holding the headers as they still stand, followed by output
    only.  From then on the headers do not change, whatever the handler
    asks for, and the wire only grows by output.  If the handler first
    only reads and sets headers and trailers and then hands over a
    message, the wire starts with the headers set up to then, followed by
    that message.  If instead it fails without any message, the wire is
    the headers set up to then followed by the failure. *)
Theorem headers_frozen_before_output (i : Init) :
  (forall t,
     let r := response (run t (create i)) in
     (frozen r = false /\ wire r = []) \/
     (frozen r = true /\
      exists rest, wire r = FHeader (responseHeader r) :: rest /\
                   forallb is_output rest = true)) /\
  (forall t t',
     let r := response (run t (create i)) in
     let r' := response (run t' (run t (create i))) in
     frozen r = true ->
     frozen r' = true /\ responseHeader r' = responseHeader r /\
     exists more, wire r' = wire r ++ more /\ forallb is_output more = true) /\
  (forall t0 m t1,
     let r := response (run (t0 ++ Handler (Yield m) :: t1) (create i)) in
     forallb silent t0 = true ->
     responseHeader r = headers_set t0 /\
     exists rest, wire r = FHeader (headers_set t0) :: FMessage m :: rest /\
                  forallb is_output rest = true) /\
  (forall t0 t1,
     let r := response (run (t0 ++ Handler Throw :: t1) (create i)) in
     forallb silent t0 = true ->
     responseHeader r = headers_set t0 /\
     exists trailer, wire r = [ FHeader (headers_set t0); FEnd false trailer ]).
Proof.
  split; [|split; [|split]].
  - intros t r.
    assert (H : response_ok r).
    { unfold r. rewrite response_run. apply fold_respond_ok, create_response_ok. }
    unfold response_ok in H. destruct (frozen r).
    + right. now split.
    + left. destruct H. now split.
  - intros t t' r r' Hf. unfold r'. rewrite response_run.
    now apply fold_respond_frozen.
  - intros t0 m t1 r Hs. unfold r.
    rewrite run_app, run_cons, response_run, response_step, response_run.
    destruct (fold_respond_silent t0 (response (create i)) Hs eq_refl eq_refl)
      as (Hf & He & Hw & Hh).
    set (r0 := fold_left respond_event t0 (response (create i))) in *.
    change (respond_event r0 (Handler (Yield m))) with (respond (Yield m) r0).
    rewrite (respond_open_eq (Yield m) r0 He Hf), Hw, Hh. simpl.
    match goal with
    | |- context [fold_left respond_event t1 ?r1] =>
        destruct (fold_respond_frozen t1 r1 eq_refl) as (_ & Hh' & more & Hw' & Hm)
    end.
    simpl in Hh', Hw'. split; [exact Hh'|].
    exists more. now split.
  - intros t0 t1 r Hs. unfold r.
    rewrite run_app, run_cons, response_run, response_step, response_run.
    destruct (fold_respond_silent t0 (response (create i)) Hs eq_refl eq_refl)
      as (Hf & He & Hw & Hh).
    set (r0 := fold_left respond_event t0 (response (create i))) in *.
    change (respond_event r0 (Handler Throw)) with (respond Throw r0).
    rewrite (respond_open_eq Throw r0 He Hf), Hw, Hh. simpl.
    rewrite fold_respond_ended by reflexivity. simpl.
    split; [reflexivity|]. now eexists.
Qed.

Lemma headers_frozen_before_output_witness :
  exists trailer,
    wire (response
            (run ([ Handler (SetResponseHeader "x-page" "1"); Elapse 5 ]
                    ++ Handler Throw
                    :: [ Handler (SetResponseHeader "x-late" "2") ])
                 (create {| init_shape := ServerStreaming; init_protocol := Grpc;
                            init_requestMethod := "POST";
                            init_requestHeader := [];
                            init_timeoutMs := None; init_now := 0 |})))
    = [ FHeader [ ("x-page", "1") ]; FEnd false trailer ].
Proof.
  destruct (headers_frozen_before_output
              {| init_shape := ServerStreaming; init_protocol := Grpc;
                 init_requestMethod := "POST"; init_requestHeader := [];
                 init_timeoutMs := None; init_now := 0 |})
    as (_ & _ & _ & H).
  destruct (H [ Handler (SetResponseHeader "x-page" "1"); Elapse 5 ]
              [ Handler (SetResponseHeader "x-late" "2") ] eq_refl)
    as (_ & trailer & Hw).
  exists trailer. exact Hw.
Defined.

End ResponseHeaders.

(** * Further properties of the source file *)

(** ** The conditional chain of [MethodImpl] *)

Section Chain.












End Chain.

(** ** The four signatures side by side *)

Section Flags.

(** X7.  The four signatures are the combinations of two choices.  All
    take two parameters, the request side and then the context, of the
    same type for every shape; the request side is one input message or
    an async iterable of input messages according to [streaming_input].
    A result value is a stream for the shapes with [streaming_output] and
    delivers one message for the others, and every result of a shape
    without [streaming_output] is also a result a unary handler may give.
    The two choices determine the shape. *)
Theorem signatures_by_flags (k : MethodKind) (A B : MessageType) :
  (exists name,
      params_of (impl_of k A B)
      = [ (name, if streaming_input k then TAsyncIterable (TMessage A)
                 else TMessage A);
          ("context", HandlerContext) ]) /\
  (forall v, has_type (return_of (impl_of k A B)) v ->
             if streaming_output k
             then exists it, output_of v = MessageStream it
             else exists d m, output_of v = OneMessage d m) /\
  (streaming_output k = false ->
   forall v, has_type (return_of (impl_of k A B)) v ->
             has_type (return_of (UnaryImpl A B)) v) /\
  (forall k', streaming_input k' = streaming_input k ->
              streaming_output k' = streaming_output k -> k' = k).
Proof.
  split; [destruct k; eexists; reflexivity|].
  split; [|split].
  - intros v H. destruct k; simpl.
    + destruct H as [H | H].
      * destruct (promise_result_inv B v H) as (m & _ & Ho & _).
        now exists Async, m.
      * exists Sync, v. now apply (sync_result B).
    + destruct (stream_result_inv B v H) as (it & _ & Ho & _). now exists it.
    + destruct (promise_result_inv B v H) as (m & _ & Ho & _).
      now exists Async, m.
    + destruct (stream_result_inv B v H) as (it & _ & Ho & _). now exists it.
  - destruct k; simpl; intros Hk v H; try discriminate; [exact H | now left].
  - intros k'. destruct k, k'; simpl; intros; congruence.
Qed.

Lemma signatures_by_flags_witness :
  has_type (return_of (UnaryImpl Sample.GetUserRequest Sample.User))
           (VPromise (Sample.default_message Sample.User)).
Proof.
  destruct (signatures_by_flags ClientStreaming Sample.GetUserRequest Sample.User)
    as (_ & _ & H & _).
  apply (H eq_refl).
  exists (Sample.default_message Sample.User). split; [reflexivity|].
  apply full_is_output, default_message_typed.
Defined.

End Flags.
